(** * python-pptx: package graph, lazy properties and plot accessors

    A shallow embedding of [pptx/presentation.py] and [pptx/chart/plot.py].

    Python objects are modelled by their identity (a natural number) and
    their attributes by explicit state.  Exceptions are values of [exn]
    carried by [result].  Generators are modelled by the list of values
    they yield when run to exhaustion. *)

From stdpp Require Import gmap strings list fin_maps fin_sets pretty.

(** ** Python exceptions and results *)

Inductive exn : Type :=
| KeyError
| ValueError
| AttributeError
| IOError.

Inductive result (A : Type) : Type :=
| Ok (a : A)
| Raise (e : exn).
Arguments Ok {A} a.
Arguments Raise {A} e.

#[global] Instance exn_eq_dec : EqDecision exn.
Proof. solve_decision. Defined.

(** ** Parts and relationships *)

(** A part is identified by reference: [part in parts] compares object
    identity, which is the natural number here. *)
Abbreviation Part := nat.

(** One relationship as the code in these files reads it: its key, its
    type tag and the part [rel.target_part] evaluates to. *)
Record Relationship : Type := mkRel {
  rId : string;
  reltype : string;
  target_part : Part
}.

(** The store of part objects: [part._relationships] for every part that
    owns relationships.  A part without an entry owns an empty
    collection. *)
Abbreviation Heap := (gmap nat (list Relationship)).

Definition _relationships (h : Heap) (part : Part) : list Relationship :=
  default [] (h !! part).

(** Relationship type tags of [pptx.opc.constants.RELATIONSHIP_TYPE]. *)
Module RT.
Definition CORE_PROPERTIES : string :=
  "http://schemas.openxmlformats.org/package/2006/relationships/metadata/core-properties".
Definition OFFICE_DOCUMENT : string :=
  "http://schemas.openxmlformats.org/officeDocument/2006/relationships/officeDocument".
Definition SLIDE_MASTER : string :=
  "http://schemas.openxmlformats.org/officeDocument/2006/relationships/slideMaster".
End RT.

(** ** [lazyproperty]

    [get_prop_value] over any object state [Obj]: [getattr] reads the
    cache attribute (raising [AttributeError] when it is not there),
    [setattr] writes it, and [f] is the decorated method, which may change
    the object and may raise. *)

Section lazyproperty.
Context {Obj Value : Type}.
Variable getattr : Obj → result Value.
Variable setattr : Obj → Value → Obj.
Variable f : Obj → result Value * Obj.

Definition get_prop_value (obj : Obj) : result Value * Obj :=
  match getattr obj with
  | Ok cached => (Ok cached, obj)
  | Raise AttributeError =>
      match f obj with
      | (Ok value, obj') => (Ok value, setattr obj' value)
      | (Raise e, obj') => (Raise e, obj')
      end
  | Raise e => (Raise e, obj)
  end.
End lazyproperty.

(** The decorator on a plain Python object, whose attributes are a
    dictionary from names to values (values by identity).  The second
    component of the state counts the calls of the decorated method. *)
Module Lazy.

Abbreviation Attrs := (gmap string nat).

Definition cache_attr_name (f_name : string) : string := "_" +:+ f_name.

Definition getattr (name : string) (s : Attrs * nat) : result nat :=
  match s.1 !! name with
  | Some v => Ok v
  | None => Raise AttributeError
  end.

Definition setattr (name : string) (s : Attrs * nat) (v : nat)
    : Attrs * nat :=
  (<[name := v]> s.1, s.2).

(** One call of the decorated method, counted. *)
Definition counted (f : Attrs → result nat * Attrs) (s : Attrs * nat)
    : result nat * (Attrs * nat) :=
  let '(r, obj') := f s.1 in (r, (obj', S s.2)).

Definition lazyproperty (f_name : string)
    (f : Attrs → result nat * Attrs)
    : Attrs * nat → result nat * (Attrs * nat) :=
  get_prop_value (getattr (cache_attr_name f_name))
                 (setattr (cache_attr_name f_name))
                 (counted f).

(** [n] successive reads of the property, each result in order. *)
Fixpoint accesses (f_name : string) (f : Attrs → result nat * Attrs)
    (n : nat) (s : Attrs * nat) : list (result nat) * (Attrs * nat) :=
  match n with
  | O => ([], s)
  | S n' =>
      let '(r, s1) := lazyproperty f_name f s in
      let '(rs, s2) := accesses f_name f n' s1 in
      (r :: rs, s2)
  end.

(** The decorated method runs exactly once over [n] reads and every
    read gives the value of the first. *)
Definition runs_once (f_name : string) (f : Attrs → result nat * Attrs)
    (obj : Attrs) (n : nat) : Prop :=
  ∃ v obj',
    accesses f_name f n (obj, 0) = (replicate n (Ok v), (obj', 1)).

End Lazy.

(** ** [RelationshipCollection] *)

Module RelationshipCollection.

(** Modelled from the spec: [part_with_reltype] of [pptx.opc.rels],
    a module this development does not embed.  It returns the target part
    of the first relationship of the type, in insertion order, and
    fails with a not-found error ([KeyError], the one its callers
    catch) when none matches. *)
Definition part_with_reltype (rels : list Relationship) (rt : string)
    : result Part :=
  match List.find (λ rel, bool_decide (reltype rel = rt)) rels with
  | Some rel => Ok (target_part rel)
  | None => Raise KeyError
  end.

(** Modelled from the spec: the fresh key of [get_or_add], the first
    of rId1, rId2, ... that no relationship of the collection uses. *)
Definition _next_rId (rels : list Relationship) : string :=
  let used := rId <$> rels in
  let candidates := (λ n, "rId" +:+ pretty n) <$> seq 1 (S (length rels)) in
  default "rId0" (List.find (λ k, bool_decide (k ∉ used)) candidates).

(** Modelled from the spec: [get_or_add] of [pptx.opc.rels].  It
    returns the existing relationship of the type when there is one,
    else appends one to the target under a fresh key. *)
Definition get_or_add (rels : list Relationship) (rt : string)
    (target : Part) : Relationship * list Relationship :=
  match List.find (λ rel, bool_decide (reltype rel = rt)) rels with
  | Some rel => (rel, rels)
  | None =>
      let rel := mkRel (_next_rId rels) rt target in
      (rel, rels ++ [rel])
  end.

End RelationshipCollection.

(** ** [Package] *)

Module Package.

(** *** [Package._walkparts]

    The generator shares one list [parts] among all recursive calls and
    appends to it in place; the model threads that list through and
    returns it next to the yielded parts.  [fuel] bounds the depth of the
    Python recursion, [None] means the bound was hit. *)

Section Walk.
Variable h : Heap.

(** The [for rel in rels] loop, with the recursive generator call
    abstracted as [walk]. *)
Fixpoint walk_rels
    (walk : list Relationship → list Part → option (list Part * list Part))
    (rels : list Relationship) (parts : list Part)
    : option (list Part * list Part) :=
  match rels with
  | [] => Some ([], parts)
  | rel :: rels' =>
      let part := target_part rel in
      if decide (part ∈ parts) then walk_rels walk rels' parts
      else
        let parts1 := parts ++ [part] in
        match walk (_relationships h part) parts1 with
        | None => None
        | Some (sub, parts2) =>
            match walk_rels walk rels' parts2 with
            | None => None
            | Some (rest, parts3) => Some (part :: sub ++ rest, parts3)
            end
        end
  end.

Fixpoint _walkparts (fuel : nat)
    : list Relationship → list Part → option (list Part * list Part) :=
  match fuel with
  | O => fun _ _ => None
  | S fuel' => walk_rels (_walkparts fuel')
  end.

(** [Package._parts]: the initial call leaves [parts] out, which starts
    it as the empty list; the comprehension collects every yield. *)
Definition _parts (fuel : nat) (_rels : list Relationship)
    : option (list Part) :=
  fst <$> _walkparts fuel _rels [].

(** Parts reachable from a relationship collection. *)
Inductive reachable (rels : list Relationship) : Part → Prop :=
| reach_root rel :
    rel ∈ rels → reachable rels (target_part rel)
| reach_step part rel :
    reachable rels part →
    rel ∈ _relationships h part →
    reachable rels (target_part rel).

(** Depth-first preorder over the relationship graph, as a relation:
    [depth_first rels seen out] when [out] lists, in order, the parts
    first met walking [rels] depth-first with [seen] already visited. *)
Inductive depth_first : list Relationship → list Part → list Part → Prop :=
| df_done seen :
    depth_first [] seen []
| df_seen rel rels seen out :
    target_part rel ∈ seen →
    depth_first rels seen out →
    depth_first (rel :: rels) seen out
| df_descend rel rels seen sub rest :
    target_part rel ∉ seen →
    depth_first (_relationships h (target_part rel))
                (seen ++ [target_part rel]) sub →
    depth_first rels ((seen ++ [target_part rel]) ++ sub) rest →
    depth_first (rel :: rels) seen (target_part rel :: sub ++ rest).

(** The parts of the store not visited yet: what bounds the depth of
    the recursion. *)
Definition pending (seen : list Part) : nat :=
  size (dom h ∖ list_to_set seen).

(** What a finished walk of [rels] from [seen] with yields [out]
    guarantees. *)
Definition walk_ok (rels : list Relationship) (seen out : list Part)
    : Prop :=
  NoDup (seen ++ out) ∧
  (∀ rel, rel ∈ rels → target_part rel ∈ seen ++ out) ∧
  (∀ part rel, part ∈ out → rel ∈ _relationships h part →
               target_part rel ∈ seen ++ out) ∧
  (∀ part, part ∈ out → reachable rels part) ∧
  depth_first rels seen out.

End Walk.

(** *** Package objects and the class-level registry *)

(** The attributes of one [Package] object; a cache attribute of a lazy
    property that has not been set yet is [None]. *)
Record Obj : Type := mkObj {
  _rels : list Relationship;
  _core_properties : option Part;
  _presentation : option Part
}.

(** The state the class works on: the part objects, the live [Package]
    objects by identity, and the class variable [_instances], a list of
    weak references (a weak reference names its referent and does not
    keep it in [packages]). *)
Record World : Type := mkWorld {
  parts : Heap;
  next_part : nat;
  packages : gmap nat Obj;
  next_package : nat;
  _instances : list nat
}.

(** Calling a weak reference: the referent when it is alive, else
    Python's [None]. *)
Definition wkref_call (w : World) (wkref : nat) : option (nat * Obj) :=
  (λ o, (wkref, o)) <$> packages w !! wkref.

(** [Package.__init__] on the new object [self]. *)
Definition __init__ (self : nat) (w : World) : World :=
  mkWorld (parts w) (next_part w)
          (<[self := mkObj [] None None]> (packages w))
          (next_package w)
          (_instances w ++ [self]).

(** [cls()]: a new object, then [__init__]. *)
Definition new (w : World) : nat * World :=
  let self := next_package w in
  (self,
   __init__ self
     (mkWorld (parts w) (next_part w) (packages w) (S self) (_instances w))).

(** The collector reclaiming the unreferenced package [pkg]. *)
Definition collect (pkg : nat) (w : World) : World :=
  mkWorld (parts w) (next_part w) (delete pkg (packages w))
          (next_package w) (_instances w).

(** [Package.instances]: the slice assignment rewrites the registry in
    place, then every kept reference is called. *)
Definition instances (w : World) : list (option (nat * Obj)) * World :=
  let kept :=
    List.filter (λ wkref, bool_decide (is_Some (wkref_call w wkref)))
                (_instances w) in
  let w' :=
    mkWorld (parts w) (next_part w) (packages w) (next_package w) kept in
  let pkgs := wkref_call w' <$> _instances w' in
  (pkgs, w').

(** The loop of [Package.containing] over the tuple [instances()]
    returned.  An element that is [None] has no [_parts]. *)
Fixpoint containing_loop (h : Heap) (fuel : nat) (part : Part)
    (pkgs : list (option (nat * Obj))) : option (result nat) :=
  match pkgs with
  | [] => Some (Raise KeyError)
  | None :: _ => Some (Raise AttributeError)
  | Some (pkg, o) :: pkgs' =>
      match _parts h fuel (_rels o) with
      | None => None
      | Some ps =>
          if decide (part ∈ ps) then Some (Ok pkg)
          else containing_loop h fuel part pkgs'
      end
  end.

(** [Package.containing]; [None] when [fuel] did not suffice for a
    traversal. *)
Definition containing (fuel : nat) (part : Part) (w : World)
    : option (result nat) * World :=
  let '(pkgs, w') := instances w in
  (containing_loop (parts w') fuel part pkgs, w').

(** *** [Package.core_properties] and [Package.presentation]

    A lazy property of a package reads and writes the package object and
    may create parts, so its object state is the pair of both. *)

(** Modelled from the spec: [CoreProperties._default] of
    [pptx.parts.coreprops], a module this development does not embed; it
    creates a new part, one with no relationships of its own. *)
Definition CoreProperties_default (h : Heap) (next : nat)
    : Part * (Heap * nat) :=
  (next, (<[next := []]> h, S next)).

Definition State : Type := Obj * (Heap * nat).

Definition core_properties_body (s : State) : result Part * State :=
  let '(self, (h, next)) := s in
  match RelationshipCollection.part_with_reltype
          (_rels self) RT.CORE_PROPERTIES with
  | Ok part => (Ok part, s)
  | Raise KeyError =>
      let '(core_props, store') := CoreProperties_default h next in
      let '(_, rels') :=
        RelationshipCollection.get_or_add
          (_rels self) RT.CORE_PROPERTIES core_props in
      (Ok core_props,
       (mkObj rels' (_core_properties self) (_presentation self), store'))
  | Raise e => (Raise e, s)
  end.

Definition attr {A : Type} (field : Obj → option A) (s : State) : result A :=
  match field s.1 with
  | Some v => Ok v
  | None => Raise AttributeError
  end.

Definition set__core_properties (s : State) (v : Part) : State :=
  (mkObj (_rels s.1) (Some v) (_presentation s.1), s.2).

Definition set__presentation (s : State) (v : Part) : State :=
  (mkObj (_rels s.1) (_core_properties s.1) (Some v), s.2).

Definition core_properties : State → result Part * State :=
  get_prop_value (attr _core_properties) set__core_properties
                 core_properties_body.

Definition presentation_body (s : State) : result Part * State :=
  (RelationshipCollection.part_with_reltype (_rels s.1) RT.OFFICE_DOCUMENT,
   s).

Definition presentation : State → result Part * State :=
  get_prop_value (attr _presentation) set__presentation presentation_body.

(** *** [Package._images] and [Package.after_unmarshal]

    An [ImageCollection] is kept by the part lists [load] was called
    with, in call order; a new one has none.  The cache attribute of
    [_images] stands beside the other attributes of the package. *)

Abbreviation ImageCollection := (list (list Part)).

Definition ImagesState : Type := State * option ImageCollection.

Definition _images : ImagesState → result ImageCollection * ImagesState :=
  get_prop_value
    (λ s : ImagesState,
       match s.2 with
       | Some images => Ok images
       | None => Raise AttributeError
       end)
    (λ (s : ImagesState) images, (s.1, Some images))
    (λ s : ImagesState, (Ok [], s)).

(** [self._images.load(self._parts)]: the collection is read first, then
    the parts are walked, then [load] changes the collection the cache
    attribute holds. *)
Definition after_unmarshal (fuel : nat) (s : ImagesState)
    : option (result unit * ImagesState) :=
  match _images s with
  | (Raise e, s1) => Some (Raise e, s1)
  | (Ok images, s1) =>
      match _parts s1.1.2.1 fuel (_rels s1.1.1) with
      | None => None
      | Some ps => Some (Ok (), (s1.1, Some (images ++ [ps])))
      end
  end.

(** *** [Package.open]

    The container reader and the unmarshaller are collaborators; both can
    fail.  [module_dir] is the directory of the module file. *)

Section Open.
Variable module_dir : string.
Variable PackageReader : Type.
Variable from_file : string → result PackageReader.
Variable unmarshal : PackageReader → nat → World → result unit * World.

Definition _default_pptx_path : string :=
  module_dir +:+ "/templates/default.pptx".

Definition open (pkg_file : option string) (w : World)
    : result nat * World :=
  let pkg_file := default _default_pptx_path pkg_file in
  match from_file pkg_file with
  | Raise e => (Raise e, w)
  | Ok pkg_reader =>
      let '(pkg, w1) := new w in
      match unmarshal pkg_reader pkg w1 with
      | (Raise e, w2) => (Raise e, w2)
      | (Ok _, w2) => (Ok pkg, w2)
      end
  end.
End Open.

End Package.

(** ** [Presentation] *)

Module Presentation.

(** The presentation element, as far as the part reads it: the slide id
    list child, when present, holds the keys of the slide relationships;
    the other children are kept as they are. *)
Record CT_Presentation : Type := mkElement {
  other_children : list string;
  sldIdLst : option (list string)
}.

(** A [PartCollection], by the parts [add_part] was called with, in call
    order; a new one is empty. *)
Abbreviation PartCollection := (list Part).

(** A [SlideCollection], by the three objects it is constructed from. *)
Record SlideCollection : Type := mkSlideCollection {
  sc_sldIdLst : list string;
  sc_rels : list Relationship;
  sc_presentation : Part
}.

(** The attributes of a [Presentation] part; [_slidemasters] and
    [_slides] are [None] while the object has no such attribute. *)
Record Obj : Type := mkObj {
  self : Part;
  partname : string;
  content_type : string;
  _element : CT_Presentation;
  _relationships : list Relationship;
  _slidemasters : option PartCollection;
  _slides : option SlideCollection
}.

(** [Presentation.__init__], after [BasePart.__init__] gave the part no
    relationships. *)
Definition __init__ (self : Part) (partname content_type : string)
    (presentation_elm : CT_Presentation) : Obj :=
  mkObj self partname content_type presentation_elm [] None None.

Definition slidemasters (p : Obj) : PartCollection * Obj :=
  match _slidemasters p with
  | Some c => (c, p)
  | None =>
      let c : PartCollection := [] in
      (c, mkObj (self p) (partname p) (content_type p) (_element p)
                (_relationships p) (Some c) (_slides p))
  end.

(** [self.slidemasters.add_part(part)]: the collection read is the one
    the attribute holds, so the addition shows there. *)
Definition slidemasters_add_part (p : Obj) (part : Part) : Obj :=
  let '(c, p1) := slidemasters p in
  mkObj (self p1) (partname p1) (content_type p1) (_element p1)
        (_relationships p1) (Some (c ++ [part])) (_slides p1).

Definition after_unmarshal (p : Obj) : Obj :=
  foldl (λ p rel,
           if decide (reltype rel = RT.SLIDE_MASTER)
           then slidemasters_add_part p (target_part rel)
           else p)
        p (_relationships p).

Section Slides.
(** [get_or_add_sldIdLst] is a method of the element class, defined in
    [pptx.oxml]: a parameter here.  Called on the element it returns a
    slide id list and leaves the element in a state of its choosing. *)
Variable get_or_add_sldIdLst :
  CT_Presentation → list string * CT_Presentation.

Definition slides (p : Obj) : SlideCollection * Obj :=
  match _slides p with
  | Some sc => (sc, p)
  | None =>
      let '(child, elm') := get_or_add_sldIdLst (_element p) in
      let rels := _relationships p in
      let sc := mkSlideCollection child rels (self p) in
      (sc, mkObj (self p) (partname p) (content_type p) elm'
                 (_relationships p) (_slidemasters p) (Some sc))
  end.
End Slides.

(** Neither collection is built by unmarshalling: [after_unmarshal]
    leaves the part without [_slidemasters] and without [_slides]. *)
Definition built_on_first_access (p : Obj) : Prop :=
  _slidemasters (after_unmarshal p) = None
  ∧ _slides (after_unmarshal p) = None.

Section Blob.
Variable serialize_part_xml : CT_Presentation → string.

End Blob.

End Presentation.

(** ** [pptx.chart.plot] *)

Module Plot.

(** A plot element: its tag name and its data-labels child, when it has
    one. *)
Record plot_elm : Type := mkPlotElm {
  tagname : string;
  dLbls : option nat
}.

Record Plot : Type := mkPlot { _element : plot_elm }.

Record DataLabels : Type := mkDataLabels { dl_element : nat }.

Definition data_labels (self : Plot) : result DataLabels :=
  match dLbls (_element self) with
  | None => Raise ValueError
  | Some d => Ok (mkDataLabels d)
  end.

(** The function has a docstring and no statement: it returns Python's
    [None], here the [None] of [option Plot]. *)
Definition PlotFactory (elm : plot_elm) : option Plot := None.

End Plot.

(** * Properties *)

(** ** The traversal *)

Section WalkFacts.
Variable h : Heap.
Implicit Types (rels : list Relationship) (seen out : list Part).

Lemma pending_mono seen seen' :
  seen ⊆ seen' → Package.pending h seen' ≤ Package.pending h seen.
Proof.
  intros Hsub. apply subseteq_size.
  intros x. rewrite !elem_of_difference, !elem_of_list_to_set.
  intros [Hd Hn]. split; [done|]. intros Hx. apply Hn, Hsub, Hx.
Qed.

Lemma pending_visit seen part :
  part ∈ dom h → part ∉ seen →
  S (Package.pending h (seen ++ [part])) ≤ Package.pending h seen.
Proof.
  intros Hd Hn. apply subset_size. split.
  - intros x. rewrite !elem_of_difference, !elem_of_list_to_set.
    intros [Hx Hs]. split; [done|]. intros Hx'. apply Hs.
    apply elem_of_app. by left.
  - intros Hsub. specialize (Hsub part).
    rewrite !elem_of_difference, !elem_of_list_to_set in Hsub.
    destruct Hsub as [_ Hs]; [done|]. apply Hs.
    apply elem_of_app. right. by apply list_elem_of_singleton.
Qed.

Lemma relationships_outside part :
  part ∉ dom h → _relationships h part = [].
Proof.
  intros Hn. unfold _relationships.
  by rewrite (proj1 (not_elem_of_dom h part) Hn).
Qed.

Lemma reachable_mono rels rels' part :
  rels ⊆ rels' → Package.reachable h rels part →
  Package.reachable h rels' part.
Proof.
  intros Hsub Hr. induction Hr as [rel Hin | q rel _ IH Hin].
  - apply Package.reach_root. by apply Hsub.
  - by eapply Package.reach_step.
Qed.

Lemma reachable_through rels q part :
  Package.reachable h rels q →
  Package.reachable h (_relationships h q) part →
  Package.reachable h rels part.
Proof.
  intros Hq Hr. induction Hr as [rel Hin | q' rel _ IH Hin].
  - by eapply Package.reach_step.
  - by eapply Package.reach_step.
Qed.

Lemma reachable_closed rels (visited : list Part) :
  (∀ rel, rel ∈ rels → target_part rel ∈ visited) →
  (∀ part rel, part ∈ visited → rel ∈ _relationships h part →
               target_part rel ∈ visited) →
  ∀ part, Package.reachable h rels part → part ∈ visited.
Proof.
  intros Hroot Hstep part Hr.
  induction Hr as [rel Hin | q rel _ IH Hin]; eauto.
Qed.

Lemma walk_ok_nil seen : NoDup seen → Package.walk_ok h [] seen [].
Proof.
  intros Hnd. unfold Package.walk_ok. rewrite app_nil_r.
  repeat split; [done| | | |constructor].
  - intros rel Hin. by apply elem_of_nil in Hin.
  - intros part rel Hin. by apply elem_of_nil in Hin.
  - intros part Hin. by apply elem_of_nil in Hin.
Qed.

Lemma walk_ok_seen rel rels seen out :
  target_part rel ∈ seen →
  Package.walk_ok h rels seen out →
  Package.walk_ok h (rel :: rels) seen out.
Proof.
  intros Hin (Hnd & Hroot & Hstep & Hreach & Hdf).
  repeat split; [done| |done| |by constructor].
  - intros rel' [->|Hin']%elem_of_cons; [|by apply Hroot].
    apply elem_of_app. by left.
  - intros part Hp. eapply reachable_mono; [|by apply Hreach].
    intros x Hx. by apply elem_of_cons; right.
Qed.

Lemma walk_ok_descend rel rels seen sub rest :
  target_part rel ∉ seen →
  Package.walk_ok h (_relationships h (target_part rel))
                  (seen ++ [target_part rel]) sub →
  Package.walk_ok h rels ((seen ++ [target_part rel]) ++ sub) rest →
  Package.walk_ok h (rel :: rels) seen (target_part rel :: sub ++ rest).
Proof.
  set (part := target_part rel).
  intros Hnew (Hnd1 & Hroot1 & Hstep1 & Hreach1 & Hdf1)
              (Hnd2 & Hroot2 & Hstep2 & Hreach2 & Hdf2).
  assert (Heq : seen ++ part :: sub ++ rest
                = ((seen ++ [part]) ++ sub) ++ rest).
  { by rewrite <- !app_assoc. }
  assert (Hpart : Package.reachable h (rel :: rels) part).
  { apply Package.reach_root. by apply elem_of_cons; left. }
  unfold Package.walk_ok. rewrite Heq.
  repeat split; [done| | | |by constructor].
  - intros rel' [->|Hin']%elem_of_cons; [|by apply Hroot2].
    rewrite !elem_of_app. left; left; right.
    by apply list_elem_of_singleton.
  - intros q rel' [->|[Hq|Hq]%elem_of_app]%elem_of_cons Hrel.
    + apply elem_of_app. left. by apply Hroot1.
    + apply elem_of_app. left. by eapply Hstep1.
    + by eapply Hstep2.
  - intros q [->|[Hq|Hq]%elem_of_app]%elem_of_cons.
    + done.
    + eapply reachable_through; [exact Hpart|]. by apply Hreach1.
    + eapply reachable_mono; [|by apply Hreach2].
      intros x Hx. by apply elem_of_cons; right.
Qed.

(** The traversal returns as soon as the depth bound exceeds the number
    of parts still pending by two, and what it returns is a finished
    walk; the list it shares grows by exactly the parts it yields. *)
Lemma walkparts_spec fuel :
  ∀ rels seen,
    NoDup seen →
    Package.pending h seen + 2 ≤ fuel →
    ∃ out,
      Package._walkparts h fuel rels seen = Some (out, seen ++ out)
      ∧ Package.walk_ok h rels seen out.
Proof.
  induction fuel as [|fuel IHfuel]; [intros; lia|].
  intros rels.
  change (Package._walkparts h (S fuel))
    with (Package.walk_rels h (Package._walkparts h fuel)).
  induction rels as [|rel rels IHrels]; intros seen Hnd Hfuel; simpl.
  - exists []. rewrite app_nil_r. split; [done|by apply walk_ok_nil].
  - destruct (decide (target_part rel ∈ seen)) as [Hin|Hnew].
    + destruct (IHrels seen Hnd Hfuel) as (out & Hrun & Hok).
      exists out. split; [exact Hrun|by apply walk_ok_seen].
    + set (part := target_part rel) in *.
      assert (Hnd1 : NoDup (seen ++ [part])).
      { apply NoDup_app. repeat split; [done| |apply NoDup_singleton].
        intros x Hx ->%list_elem_of_singleton. done. }
      assert (Hsub : ∃ sub,
                 Package._walkparts h fuel (_relationships h part)
                                    (seen ++ [part])
                 = Some (sub, (seen ++ [part]) ++ sub)
                 ∧ Package.walk_ok h (_relationships h part)
                                   (seen ++ [part]) sub).
      { destruct (decide (part ∈ dom h)) as [Hd|Hd].
        - apply IHfuel; [done|].
          pose proof (pending_visit seen part Hd Hnew). lia.
        - rewrite (relationships_outside part Hd).
          destruct fuel as [|fuel']; [lia|]. simpl.
          exists []. rewrite app_nil_r.
          split; [done|by apply walk_ok_nil]. }
      destruct Hsub as (sub & Hrun1 & Hok1). rewrite Hrun1.
      destruct (IHrels ((seen ++ [part]) ++ sub)) as (rest & Hrun2 & Hok2).
      { apply Hok1. }
      { pose proof (pending_mono seen ((seen ++ [part]) ++ sub)) as Hm.
        etrans; [|exact Hfuel]. apply Nat.add_le_mono_r, Hm.
        intros x Hx. rewrite !elem_of_app. by left; left. }
      rewrite Hrun2. exists (part :: sub ++ rest). split.
      * f_equal. f_equal. by rewrite <- !app_assoc.
      * by apply walk_ok_descend.
Qed.

(** A deeper bound changes no result. *)
Lemma walk_rels_mono
    (walk walk' : list Relationship → list Part
                  → option (list Part * list Part)) :
  (∀ rels seen r, walk rels seen = Some r → walk' rels seen = Some r) →
  ∀ rels seen r,
    Package.walk_rels h walk rels seen = Some r →
    Package.walk_rels h walk' rels seen = Some r.
Proof.
  intros Hle rels. induction rels as [|rel rels IH]; intros seen r; simpl.
  - done.
  - destruct (decide (target_part rel ∈ seen)); [by apply IH|].
    destruct (walk _ _) as [[sub seen2]|] eqn:Hsub; [|done].
    rewrite (Hle _ _ _ Hsub).
    destruct (Package.walk_rels h walk rels seen2) as [[rest seen3]|]
      eqn:Hrest; [|done].
    by rewrite (IH _ _ Hrest).
Qed.

Lemma walkparts_fuel_S fuel :
  ∀ rels seen r,
    Package._walkparts h fuel rels seen = Some r →
    Package._walkparts h (S fuel) rels seen = Some r.
Proof.
  induction fuel as [|fuel IH]; intros rels seen r Hrun; [done|].
  change (Package.walk_rels h (Package._walkparts h (S fuel)) rels seen
          = Some r).
  by apply (walk_rels_mono (Package._walkparts h fuel)).
Qed.

Lemma walkparts_fuel_le fuel fuel' rels seen r :
  fuel ≤ fuel' →
  Package._walkparts h fuel rels seen = Some r →
  Package._walkparts h fuel' rels seen = Some r.
Proof.
  induction 1 as [|fuel' _ IH]; [done|].
  intros Hrun. by apply walkparts_fuel_S, IH.
Qed.

(** Whatever is returned, the shared list has grown by the yields. *)
Lemma walkparts_appends fuel :
  ∀ rels seen out seen',
    Package._walkparts h fuel rels seen = Some (out, seen') →
    seen' = seen ++ out.
Proof.
  induction fuel as [|fuel IHfuel]; [done|]. intros rels.
  change (Package._walkparts h (S fuel))
    with (Package.walk_rels h (Package._walkparts h fuel)).
  induction rels as [|rel rels IHrels]; intros seen out seen'; simpl.
  - intros [= <- <-]. by rewrite app_nil_r.
  - destruct (decide (target_part rel ∈ seen)); [by apply IHrels|].
    destruct (Package._walkparts h fuel _ _) as [[sub seen2]|] eqn:Hsub;
      [|done].
    destruct (Package.walk_rels h _ rels seen2) as [[rest seen3]|] eqn:Hrest;
      [|done].
    intros [= <- <-].
    apply IHfuel in Hsub as ->. apply IHrels in Hrest as ->.
    by rewrite <- !app_assoc.
Qed.

(** The depth-first order of a graph is one order. *)
Lemma depth_first_functional rels seen out1 :
  Package.depth_first h rels seen out1 →
  ∀ out2, Package.depth_first h rels seen out2 → out1 = out2.
Proof.
  induction 1 as [seen|rel rels seen out Hin _ IH
                  |rel rels seen sub rest Hnew _ IHsub _ IHrest];
    intros out2 H2; inversion H2; subst; try done.
  - by apply IH.
  - match goal with
    | Hs : Package.depth_first h (_relationships h _) _ ?sub2,
      Hr : Package.depth_first h rels _ ?rest2 |- _ =>
        apply IHsub in Hs as <-; apply IHrest in Hr as <-
    end.
    done.
Qed.

End WalkFacts.

(** C1.  Whatever the relationship graph, cycles included, once the depth
    bound exceeds the number of part objects by two the traversal behind
    [Package._parts] returns; the list it returns has no part twice, has
    exactly the parts reachable from the root relationships, and lists
    them in depth-first order. *)
Theorem walkparts_terminates_each_part_once
    (h : Heap) (rels : list Relationship) (k : nat) :
  ∃ ps,
    Package._parts h (size h + 2 + k) rels = Some ps
    ∧ NoDup ps
    ∧ (∀ part, part ∈ ps ↔ Package.reachable h rels part)
    ∧ Package.depth_first h rels [] ps.
Proof.
  destruct (walkparts_spec h (size h + 2 + k) rels []) as (ps & Hrun & Hok).
  { constructor. }
  { unfold Package.pending. rewrite list_to_set_nil, difference_empty_L.
    rewrite size_dom. lia. }
  destruct Hok as (Hnd & Hroot & Hstep & Hreach & Hdf).
  exists ps. unfold Package._parts. rewrite Hrun. simpl.
  repeat split; [done| |by apply reachable_closed|done].
  apply Hreach.
Qed.

(** A two-part cycle: the root points at part 1, part 1 at part 2 and
    part 2 back at part 1; a second root relationship points at part 2
    again. *)
Example walkparts_on_a_cycle :
  Package._parts
    (<[1 := [mkRel "rId1" "slide" 2]]> (<[2 := [mkRel "rId1" "back" 1]]> ∅))
    4 [mkRel "rId1" "doc" 1; mkRel "rId2" "slide" 2]
  = Some [1; 2].
Proof. vm_compute. reflexivity. Qed.

(** ** Lazy properties *)

Section LazyFacts.
Variable f_name : string.
Variable f : Lazy.Attrs → result nat * Lazy.Attrs.

(** Once the cache attribute is there, a read returns it and changes
    nothing: the decorated method is not called. *)
Lemma lazyproperty_cached (s : Lazy.Attrs * nat) (v : nat) :
  s.1 !! Lazy.cache_attr_name f_name = Some v →
  Lazy.lazyproperty f_name f s = (Ok v, s).
Proof.
  intros Hc. unfold Lazy.lazyproperty, get_prop_value, Lazy.getattr.
  by rewrite Hc.
Qed.

Lemma accesses_cached (n : nat) (s : Lazy.Attrs * nat) (v : nat) :
  s.1 !! Lazy.cache_attr_name f_name = Some v →
  Lazy.accesses f_name f n s = (replicate n (Ok v), s).
Proof.
  intros Hc. induction n as [|n IH]; [done|].
  simpl. by rewrite (lazyproperty_cached s v Hc), IH.
Qed.

(** A first read whose method returns: one call, and the value is
    cached on the object the method left. *)
Lemma lazyproperty_first (obj obj' : Lazy.Attrs) (calls v : nat) :
  obj !! Lazy.cache_attr_name f_name = None →
  f obj = (Ok v, obj') →
  Lazy.lazyproperty f_name f (obj, calls)
  = (Ok v, (<[Lazy.cache_attr_name f_name := v]> obj', S calls)).
Proof.
  intros Hc Hf.
  unfold Lazy.lazyproperty, get_prop_value, Lazy.getattr, Lazy.counted.
  simpl. by rewrite Hc, Hf.
Qed.

(** A first read whose method raises: one call, nothing cached. *)
Lemma lazyproperty_raises (obj obj' : Lazy.Attrs) (calls : nat) (e : exn) :
  obj !! Lazy.cache_attr_name f_name = None →
  f obj = (Raise e, obj') →
  Lazy.lazyproperty f_name f (obj, calls) = (Raise e, (obj', S calls)).
Proof.
  intros Hc Hf.
  unfold Lazy.lazyproperty, get_prop_value, Lazy.getattr, Lazy.counted.
  simpl. by rewrite Hc, Hf.
Qed.

End LazyFacts.

(** C2, as amended.  On an object that does not carry the cache attribute
    yet, a decorated method that returns a value is called exactly once
    over any positive number of reads, every read returns that value, and
    the value stays cached on the object. *)
Theorem lazyproperty_runs_once_when_method_returns
    (f_name : string) (f : Lazy.Attrs → result nat * Lazy.Attrs)
    (obj obj' : Lazy.Attrs) (v n : nat) :
  obj !! Lazy.cache_attr_name f_name = None →
  f obj = (Ok v, obj') →
  Lazy.accesses f_name f (S n) (obj, 0)
  = (replicate (S n) (Ok v),
     (<[Lazy.cache_attr_name f_name := v]> obj', 1)).
Proof.
  intros Hc Hf. simpl.
  rewrite (lazyproperty_first f_name f obj obj' 0 v Hc Hf).
  rewrite (accesses_cached f_name f n _ v); [done|].
  simpl. apply lookup_insert_eq.
Qed.

Lemma lazyproperty_runs_once_witness :
  Lazy.accesses "slides" (λ obj, (Ok 7, obj)) 3 (∅, 0)
  = ([Ok 7; Ok 7; Ok 7], (<["_slides" := 7]> ∅, 1)).
Proof.
  apply (lazyproperty_runs_once_when_method_returns
           "slides" (λ obj, (Ok 7, obj)) ∅ ∅ 7 2); reflexivity.
Defined.

(** C2, as stated, fails in three ways.  A decorated method that raises
    and leaves the object alone, as the body of [Package.presentation]
    does on a package without an office-document relationship, is called
    again by the next read: two reads, two calls.  An object that already carries
    the cache attribute is never asked: two reads, no call.  And with no
    read there is no call. *)
Lemma lazyproperty_method_that_raises_runs_again :
  Lazy.accesses "presentation" (λ obj, (Raise KeyError, obj)) 2 (∅, 0)
    = ([Raise KeyError; Raise KeyError], (∅, 2))
  ∧ ¬ Lazy.runs_once "presentation" (λ obj, (Raise KeyError, obj)) ∅ 2
  ∧ Lazy.accesses "slides" (λ obj, (Ok 7, obj)) 2
                  (<["_slides" := 3]> ∅, 0)
    = ([Ok 3; Ok 3], (<["_slides" := 3]> ∅, 0))
  ∧ ¬ Lazy.runs_once "slides" (λ obj, (Ok 7, obj))
                     (<["_slides" := 3]> ∅) 2
  ∧ ¬ Lazy.runs_once "slides" (λ obj, (Ok 7, obj)) ∅ 0.
Proof.
  assert (Hrun :
    Lazy.accesses "presentation" (λ obj, (Raise KeyError, obj)) 2 (∅, 0)
    = ([Raise KeyError; Raise KeyError], (∅, 2))) by reflexivity.
  assert (Hset :
    Lazy.accesses "slides" (λ obj, (Ok 7, obj)) 2
                  (<["_slides" := 3]> ∅, 0)
    = ([Ok 3; Ok 3], (<["_slides" := 3]> ∅, 0))) by reflexivity.
  split; [exact Hrun|]. split.
  { intros (v & obj' & Hone). rewrite Hrun in Hone. discriminate Hone. }
  split; [exact Hset|]. split.
  { intros (v & obj' & Hone). rewrite Hset in Hone. discriminate Hone. }
  intros (v & obj' & Hone). simpl in Hone. discriminate Hone.
Qed.

(** ** Relationship collections *)

Section RelsFacts.
Implicit Types (rels : list Relationship) (rt : string).

Lemma find_reltype_none rels rt :
  (∀ rel, rel ∈ rels → reltype rel ≠ rt) →
  List.find (λ rel, bool_decide (reltype rel = rt)) rels = None.
Proof.
  induction rels as [|rel rels IH]; intros Hno; [done|]. simpl.
  rewrite bool_decide_eq_false_2.
  - apply IH. intros r Hr. apply Hno. by apply elem_of_cons; right.
  - apply Hno. by apply elem_of_cons; left.
Qed.

Lemma find_reltype_first rels rt before rel after :
  rels = before ++ rel :: after →
  reltype rel = rt →
  (∀ r, r ∈ before → reltype r ≠ rt) →
  List.find (λ rel, bool_decide (reltype rel = rt)) rels = Some rel.
Proof.
  intros -> Hrt. induction before as [|b before IH]; intros Hno; simpl.
  - by rewrite bool_decide_eq_true_2.
  - rewrite bool_decide_eq_false_2.
    + apply IH. intros r Hr. apply Hno. by apply elem_of_cons; right.
    + apply Hno. by apply elem_of_cons; left.
Qed.

Lemma find_reltype_app_new rels rt rel :
  (∀ r, r ∈ rels → reltype r ≠ rt) →
  reltype rel = rt →
  List.find (λ rel, bool_decide (reltype rel = rt)) (rels ++ [rel])
  = Some rel.
Proof.
  intros Hno Hrt.
  by apply (find_reltype_first (rels ++ [rel]) rt rels rel []).
Qed.

Lemma part_with_reltype_not_found rels rt :
  (∀ rel, rel ∈ rels → reltype rel ≠ rt) →
  RelationshipCollection.part_with_reltype rels rt = Raise KeyError.
Proof.
  intros Hno. unfold RelationshipCollection.part_with_reltype.
  by rewrite find_reltype_none.
Qed.

Lemma get_or_add_new rels rt target :
  (∀ rel, rel ∈ rels → reltype rel ≠ rt) →
  RelationshipCollection.get_or_add rels rt target
  = (mkRel (RelationshipCollection._next_rId rels) rt target,
     rels ++ [mkRel (RelationshipCollection._next_rId rels) rt target]).
Proof.
  intros Hno. unfold RelationshipCollection.get_or_add.
  by rewrite find_reltype_none.
Qed.

End RelsFacts.

(** ** [Package.core_properties] *)

(** C3.  On the first read of [core_properties], when no root
    relationship has the core-properties type the not-found error of
    [part_with_reltype] is caught: a new part is created, [get_or_add]
    appends a relationship of that type to it on the root collection,
    and the part is returned and cached.  When a relationship of the
    type exists, the target of the first one is returned and cached,
    and nothing else changes. *)
Theorem core_properties_recovers_not_found
    (self : Package.Obj) (h : Heap) (next : nat) :
  Package._core_properties self = None →
  ( (∀ rel, rel ∈ Package._rels self → reltype rel ≠ RT.CORE_PROPERTIES) →
    RelationshipCollection.part_with_reltype
      (Package._rels self) RT.CORE_PROPERTIES = Raise KeyError
    ∧ ∃ added,
        RelationshipCollection.get_or_add
          (Package._rels self) RT.CORE_PROPERTIES next
        = (added, Package._rels self ++ [added])
        ∧ reltype added = RT.CORE_PROPERTIES
        ∧ target_part added = next
        ∧ Package.core_properties (self, (h, next))
          = (Ok next,
             (Package.mkObj (Package._rels self ++ [added]) (Some next)
                            (Package._presentation self),
              (<[next := []]> h, S next)))
        ∧ RelationshipCollection.part_with_reltype
            (Package._rels self ++ [added]) RT.CORE_PROPERTIES = Ok next )
  ∧ ( ∀ before rel after,
        Package._rels self = before ++ rel :: after →
        reltype rel = RT.CORE_PROPERTIES →
        (∀ r, r ∈ before → reltype r ≠ RT.CORE_PROPERTIES) →
        Package.core_properties (self, (h, next))
        = (Ok (target_part rel),
           (Package.mkObj (Package._rels self) (Some (target_part rel))
                          (Package._presentation self),
            (h, next))) ).
Proof.
  intros Hfirst. split.
  - intros Hno. split; [by apply part_with_reltype_not_found|].
    eexists. split; [by apply get_or_add_new|].
    repeat split.
    + unfold Package.core_properties, get_prop_value, Package.attr. simpl.
      rewrite Hfirst. simpl.
      rewrite (part_with_reltype_not_found _ _ Hno).
      unfold Package.CoreProperties_default.
      by rewrite (get_or_add_new _ _ next Hno).
    + unfold RelationshipCollection.part_with_reltype.
      by rewrite find_reltype_app_new.
  - intros before rel after Hrels Hrt Hno.
    unfold Package.core_properties, get_prop_value, Package.attr. simpl.
    rewrite Hfirst. simpl.
    unfold RelationshipCollection.part_with_reltype.
    by rewrite (find_reltype_first _ _ before rel after Hrels Hrt Hno).
Qed.

Lemma core_properties_recovers_not_found_witness :
  Package.core_properties
    (Package.mkObj [mkRel "rId1" RT.OFFICE_DOCUMENT 1] None None,
     (<[1 := []]> ∅, 2))
  = (Ok 2,
     (Package.mkObj [mkRel "rId1" RT.OFFICE_DOCUMENT 1;
                     mkRel "rId2" RT.CORE_PROPERTIES 2] (Some 2) None,
      (<[2 := []]> (<[1 := []]> ∅), 3)))
  ∧ Package.core_properties
      (Package.mkObj [mkRel "rId1" RT.OFFICE_DOCUMENT 1;
                      mkRel "rId2" RT.CORE_PROPERTIES 5] None None,
       (∅, 7))
    = (Ok 5,
       (Package.mkObj [mkRel "rId1" RT.OFFICE_DOCUMENT 1;
                       mkRel "rId2" RT.CORE_PROPERTIES 5] (Some 5) None,
        (∅, 7))).
Proof.
  split.
  - destruct (core_properties_recovers_not_found
                (Package.mkObj [mkRel "rId1" RT.OFFICE_DOCUMENT 1] None None)
                (<[1 := []]> ∅) 2 eq_refl) as [Hnew _].
    destruct Hnew as (_ & added & Hadd & _ & _ & Hrun & _).
    + intros rel ->%list_elem_of_singleton. simpl. discriminate.
    + vm_compute in Hadd. injection Hadd as <-. exact Hrun.
  - destruct (core_properties_recovers_not_found
                (Package.mkObj [mkRel "rId1" RT.OFFICE_DOCUMENT 1;
                                mkRel "rId2" RT.CORE_PROPERTIES 5] None None)
                ∅ 7 eq_refl) as [_ Hold].
    apply (Hold [mkRel "rId1" RT.OFFICE_DOCUMENT 1]
                (mkRel "rId2" RT.CORE_PROPERTIES 5) []); [done|done|].
    intros r ->%list_elem_of_singleton. simpl. discriminate.
Defined.

(** ** [Presentation] *)

Section PresentationFacts.
Import Presentation.

(** The slide-master targets among a relationship collection, in order. *)
Lemma slidemasters_add_part_fields (p : Obj) (part : Part) :
  let p' := slidemasters_add_part p part in
  self p' = self p ∧ partname p' = partname p
  ∧ content_type p' = content_type p ∧ _element p' = _element p
  ∧ _relationships p' = _relationships p ∧ _slides p' = _slides p
  ∧ _slidemasters p' = Some (default [] (_slidemasters p) ++ [part]).
Proof.
  unfold slidemasters_add_part, slidemasters.
  destruct (_slidemasters p) as [c|]; simpl; repeat split; done.
Qed.

(** The loop of [after_unmarshal] over any relationships [rels]. *)
Lemma after_unmarshal_loop (rels : list Relationship) :
  ∀ p : Obj,
    let step := λ (p : Obj) rel,
      if decide (reltype rel = RT.SLIDE_MASTER)
      then slidemasters_add_part p (target_part rel) else p in
    let masters :=
      target_part <$>
        List.filter (λ rel, bool_decide (reltype rel = RT.SLIDE_MASTER)) rels in
    let p' := foldl step p rels in
    _element p' = _element p ∧ _relationships p' = _relationships p
    ∧ _slides p' = _slides p
    ∧ _slidemasters p'
      = match masters with
        | [] => _slidemasters p
        | _ => Some (default [] (_slidemasters p) ++ masters)
        end.
Proof.
  induction rels as [|rel rels IH]; intros p; simpl; [done|].
  destruct (decide (reltype rel = RT.SLIDE_MASTER)) as [Hm|Hm].
  - rewrite (bool_decide_eq_true_2 _ Hm). simpl.
    destruct (IH (slidemasters_add_part p (target_part rel)))
      as (He & Hr & Hs & Hc).
    destruct (slidemasters_add_part_fields p (target_part rel))
      as (_ & _ & _ & He' & Hr' & Hs' & Hc').
    simpl in *. rewrite He, Hr, Hs, Hc, He', Hr', Hs', Hc'. simpl.
    repeat split.
    destruct (List.filter _ rels) as [|m ms]; simpl; [done|].
    by rewrite <- app_assoc.
  - rewrite (bool_decide_eq_false_2 _ Hm). apply IH.
Qed.

End PresentationFacts.

(** C4, as amended.  [after_unmarshal] leaves [_slides] and the element as
    they are, so [slides] is built at its first read, from the element's
    slide id list and the relationships the part has then.
    [slidemasters] is created empty at its first read, and that read
    happens during unmarshalling when the part has a slide-master
    relationship: [after_unmarshal] adds the target of each of them, in
    order. *)
Theorem presentation_collections_built
    (get_or_add_sldIdLst :
       Presentation.CT_Presentation
       → list string * Presentation.CT_Presentation)
    (p : Presentation.Obj) :
  let masters :=
    target_part <$>
      List.filter (λ rel, bool_decide (reltype rel = RT.SLIDE_MASTER))
                  (Presentation._relationships p) in
  Presentation._slides (Presentation.after_unmarshal p)
    = Presentation._slides p
  ∧ Presentation._element (Presentation.after_unmarshal p)
    = Presentation._element p
  ∧ Presentation._slidemasters (Presentation.after_unmarshal p)
    = match masters with
      | [] => Presentation._slidemasters p
      | _ => Some (default [] (Presentation._slidemasters p) ++ masters)
      end
  ∧ (Presentation._slidemasters p = None →
     Presentation.slidemasters p
     = ([], Presentation.mkObj
              (Presentation.self p) (Presentation.partname p)
              (Presentation.content_type p) (Presentation._element p)
              (Presentation._relationships p) (Some [])
              (Presentation._slides p)))
  ∧ (Presentation._slides p = None →
     ∃ sc p',
       Presentation.slides get_or_add_sldIdLst p = (sc, p')
       ∧ sc = Presentation.mkSlideCollection
                (get_or_add_sldIdLst (Presentation._element p)).1
                (Presentation._relationships p) (Presentation.self p)
       ∧ Presentation._slides p' = Some sc
       ∧ Presentation.slides get_or_add_sldIdLst p' = (sc, p')).
Proof.
  destruct (after_unmarshal_loop (Presentation._relationships p) p)
    as (He & _ & Hs & Hc).
  repeat split; try done.
  - intros Hnone. unfold Presentation.slidemasters. by rewrite Hnone.
  - intros Hnone. unfold Presentation.slides at 1. rewrite Hnone.
    destruct (get_or_add_sldIdLst (Presentation._element p))
      as [child elm'] eqn:Hget.
    eexists _, _. repeat split.
Qed.

(** C4, as stated, fails: loading a presentation with one slide-master
    relationship leaves [_slidemasters] created and populated before any
    read by the caller. *)
Lemma slidemasters_populated_during_unmarshal :
  Presentation._slidemasters
    (Presentation.after_unmarshal
       (Presentation.mkObj 1 "/ppt/presentation.xml" "application/xml"
          (Presentation.mkElement [] None)
          [mkRel "rId1" RT.SLIDE_MASTER 5] None None))
    = Some [5]
  ∧ ¬ Presentation.built_on_first_access
        (Presentation.mkObj 1 "/ppt/presentation.xml" "application/xml"
           (Presentation.mkElement [] None)
           [mkRel "rId1" RT.SLIDE_MASTER 5] None None).
Proof.
  split; [reflexivity|].
  intros [Hm _]. vm_compute in Hm. discriminate Hm.
Qed.



(** ** The registry of packages *)

Section RegistryFacts.
Import Package.

Lemma wkref_call_live (w : World) (wkref : nat) :
  is_Some (wkref_call w wkref) ↔ is_Some (packages w !! wkref).
Proof. unfold wkref_call. apply fmap_is_Some. Qed.

Lemma wkref_call_Some (w : World) (wkref pkg : nat) (o : Obj) :
  wkref_call w wkref = Some (pkg, o) ↔
  pkg = wkref ∧ packages w !! wkref = Some o.
Proof.
  unfold wkref_call. destruct (packages w !! wkref) as [o'|]; simpl.
  - split; [intros [= <- <-]; done|intros [-> [= ->]]; done].
  - split; [done|intros [_ ?]; done].
Qed.

(** The references [instances] keeps: those whose referent is alive, in
    the order of registration. *)
Lemma instances_kept (w : World) :
  _instances (instances w).2
  = List.filter (λ wkref, bool_decide (is_Some (packages w !! wkref)))
                (_instances w).
Proof.
  unfold instances. simpl. apply List.filter_ext. intros r.
  apply bool_decide_ext, wkref_call_live.
Qed.

Lemma instances_returned (w : World) :
  (instances w).1 = wkref_call w <$> _instances (instances w).2.
Proof. reflexivity. Qed.

Lemma kept_live (w : World) (wkref : nat) :
  wkref ∈ _instances (instances w).2 ↔
  wkref ∈ _instances w ∧ is_Some (packages w !! wkref).
Proof.
  rewrite instances_kept, !list_elem_of_In, List.filter_In.
  by rewrite bool_decide_eq_true.
Qed.

(** Every traversal returns under the depth bound of the store. *)
Lemma _parts_total (h : Heap) (k : nat) (rels : list Relationship) :
  ∃ ps, _parts h (size h + 2 + k) rels = Some ps.
Proof.
  destruct (walkparts_spec h (size h + 2 + k) rels []) as (ps & Hrun & _).
  { constructor. }
  { unfold pending. rewrite list_to_set_nil, difference_empty_L, size_dom.
    lia. }
  exists ps. unfold _parts. by rewrite Hrun.
Qed.

(** The loop of [containing] over live references [l]: it stops at the
    first package whose part list has [part]. *)
Lemma containing_loop_spec (w : World) (fuel : nat) (part : Part)
    (l : list nat) :
  (∀ rels, ∃ ps, _parts (parts w) fuel rels = Some ps) →
  (∀ r, r ∈ l → is_Some (packages w !! r)) →
  let has := λ r, ∃ o ps,
    packages w !! r = Some o
    ∧ _parts (parts w) fuel (_rels o) = Some ps ∧ part ∈ ps in
  ∃ res,
    containing_loop (parts w) fuel part (wkref_call w <$> l) = Some res
    ∧ match res with
      | Ok pkg =>
          ∃ before after,
            l = before ++ pkg :: after ∧ has pkg
            ∧ ∀ q, q ∈ before → ¬ has q
      | Raise e => e = KeyError ∧ ∀ q, q ∈ l → ¬ has q
      end.
Proof.
  intros Htotal Hlive has. induction l as [|r l IH]; simpl.
  - exists (Raise KeyError). repeat split. intros q Hq.
    by apply elem_of_nil in Hq.
  - destruct (Hlive r) as [o Ho]; [by apply elem_of_cons; left|].
    unfold wkref_call at 1. rewrite Ho. simpl.
    destruct (Htotal (_rels o)) as [ps Hps]. rewrite Hps.
    destruct (decide (part ∈ ps)) as [Hin|Hout].
    + exists (Ok r). split; [done|]. exists [], l. repeat split.
      * by exists o, ps.
      * intros q Hq. by apply elem_of_nil in Hq.
    + assert (Hr : ¬ has r).
      { intros (o' & ps' & Ho' & Hps' & Hin').
        rewrite Ho in Ho'. injection Ho' as <-.
        rewrite Hps in Hps'. injection Hps' as <-. done. }
      destruct IH as (res & Hrun & Hres).
      { intros q Hq. apply Hlive. by apply elem_of_cons; right. }
      exists res. split; [exact Hrun|].
      destruct res as [pkg|e].
      * destruct Hres as (before & after & -> & Hhas & Hno).
        exists (r :: before), after. repeat split; [done|].
        intros q [->|Hq]%elem_of_cons; [done|by apply Hno].
      * destruct Hres as [-> Hno]. split; [done|].
        intros q [->|Hq]%elem_of_cons; [done|by apply Hno].
Qed.

End RegistryFacts.

(** C5.  [__init__] appends a reference to the new package to the
    registry.  [instances] first drops from the registry the references
    whose package is gone, then returns the packages of those kept, all
    alive and in registration order.  The registry does not keep a
    package: it can be collected while its reference is listed, and once
    it is, [instances] neither returns it nor keeps its reference. *)
Theorem registry_prunes_collected_packages
    (w : Package.World) (self pkg : nat) :
  Package._instances (Package.__init__ self w)
    = Package._instances w ++ [self]
  ∧ Package.wkref_call (Package.__init__ self w) self
    = Some (self, Package.mkObj [] None None)
  ∧ Package._instances (Package.instances w).2
    = List.filter
        (λ wkref, bool_decide (is_Some (Package.packages w !! wkref)))
        (Package._instances w)
  ∧ (Package.instances w).1
    = Package.wkref_call w <$> Package._instances (Package.instances w).2
  ∧ (∀ x, x ∈ (Package.instances w).1 ↔
          ∃ r o, x = Some (r, o) ∧ r ∈ Package._instances w
                 ∧ Package.packages w !! r = Some o)
  ∧ Package._instances (Package.collect pkg w) = Package._instances w
  ∧ Package.wkref_call (Package.collect pkg w) pkg = None
  ∧ (pkg ∉ Package._instances
             ((Package.instances (Package.collect pkg w)).2))
  ∧ (∀ o, Some (pkg, o)
          ∉ (Package.instances (Package.collect pkg w)).1).
Proof.
  assert (Hgone : Package.packages (Package.collect pkg w) !! pkg = None).
  { simpl. apply lookup_delete_eq. }
  assert (Hmem : ∀ w' x, x ∈ (Package.instances w').1 ↔
            ∃ r o, x = Some (r, o) ∧ r ∈ Package._instances w'
                   ∧ Package.packages w' !! r = Some o).
  { intros w' x. rewrite instances_returned, list_elem_of_fmap. split.
    - intros (r & -> & Hr). apply kept_live in Hr as [Hr [o Ho]].
      exists r, o. repeat split; [|done|done].
      unfold Package.wkref_call. by rewrite Ho.
    - intros (r & o & -> & Hr & Ho). exists r. split.
      + unfold Package.wkref_call. by rewrite Ho.
      + apply kept_live. split; [done|by exists o]. }
  repeat split.
  - unfold Package.wkref_call. simpl. by rewrite lookup_insert_eq.
  - apply instances_kept.
  - apply Hmem.
  - apply Hmem.
  - unfold Package.wkref_call. by rewrite Hgone.
  - intros [_ [o Ho]]%kept_live. rewrite Hgone in Ho. discriminate Ho.
  - intros o (r & o' & [= <- <-] & _ & Ho)%Hmem.
    rewrite Hgone in Ho. discriminate Ho.
Qed.

(** Two packages are made, the first is collected: [instances] returns
    the second alone and the registry is down to its reference. *)
Example instances_after_collection :
  let w0 := Package.mkWorld ∅ 0 ∅ 0 [] in
  let w2 := (Package.new (Package.new w0).2).2 in
  Package.instances (Package.collect 0 w2)
  = ([Some (1, Package.mkObj [] None None)],
     Package.mkWorld ∅ 0 (<[1 := Package.mkObj [] None None]> ∅) 2 [1]).
Proof. vm_compute. reflexivity. Qed.

(** C9.  Under the depth bound of the store [containing] returns: the
    first package, in registration order among the live registered ones,
    whose traversed part list has the part, or [KeyError] when the list
    of no live registered package has it. *)
Theorem containing_first_live_package
    (w : Package.World) (part : Part) (k : nat) :
  let fuel := size (Package.parts w) + 2 + k in
  let live :=
    List.filter
      (λ wkref, bool_decide (is_Some (Package.packages w !! wkref)))
      (Package._instances w) in
  let has := λ r, ∃ o ps,
    Package.packages w !! r = Some o
    ∧ Package._parts (Package.parts w) fuel (Package._rels o) = Some ps
    ∧ part ∈ ps in
  ∃ res,
    (Package.containing fuel part w).1 = Some res
    ∧ match res with
      | Ok pkg =>
          ∃ before after,
            live = before ++ pkg :: after ∧ has pkg
            ∧ ∀ q, q ∈ before → ¬ has q
      | Raise e => e = KeyError ∧ ∀ q, q ∈ live → ¬ has q
      end.
Proof.
  intros fuel live has.
  destruct (containing_loop_spec w fuel part live) as (res & Hrun & Hres).
  { intros rels. apply _parts_total. }
  { intros r Hr. unfold live in Hr.
    rewrite <- instances_kept in Hr. by apply kept_live in Hr as [_ ?]. }
  exists res. split; [|exact Hres].
  unfold Package.containing.
  destruct (Package.instances w) as [pkgs w'] eqn:Hinst. simpl.
  assert (Hpkgs : pkgs = Package.wkref_call w <$> live).
  { unfold live. rewrite <- instances_kept.
    rewrite <- instances_returned. by rewrite Hinst. }
  assert (Hparts : Package.parts w' = Package.parts w).
  { change w' with (pkgs, w').2. by rewrite <- Hinst. }
  by rewrite Hpkgs, Hparts.
Qed.

(** Part 2 is in the second of two packages only; part 9 is in none. *)
Example containing_on_two_packages :
  let w :=
    Package.mkWorld
      (<[1 := [mkRel "rId1" "slide" 2]]> ∅) 3
      (<[0 := Package.mkObj [mkRel "rId1" "doc" 7] None None]>
       (<[1 := Package.mkObj [mkRel "rId1" "doc" 1] None None]> ∅))
      2 [0; 5; 1] in
  (Package.containing 3 2 w).1 = Some (Ok 1)
  ∧ (Package.containing 3 9 w).1 = Some (Raise KeyError)
  ∧ Package._instances (Package.containing 3 9 w).2 = [0; 1].
Proof. vm_compute. repeat split. Qed.

(** ** [Package.open] *)

(** C6.  [open] resolves a missing [pkg_file] to the default template
    path; whether given or resolved, it reads the container at that path,
    constructs a new package (registered, with no relationships yet),
    runs the unmarshaller on the reader and that package, and returns the
    package in the state the unmarshaller left. *)
Theorem open_reads_constructs_unmarshals
    (module_dir : string) (PackageReader : Type)
    (from_file : string → result PackageReader)
    (unmarshal :
       PackageReader → nat → Package.World → result unit * Package.World)
    (pkg_file : option string) (w w2 : Package.World)
    (pkg_reader : PackageReader) :
  let path := default (Package._default_pptx_path module_dir) pkg_file in
  let pkg := (Package.new w).1 in
  let w1 := (Package.new w).2 in
  from_file path = Ok pkg_reader →
  unmarshal pkg_reader pkg w1 = (Ok (), w2) →
  Package.open module_dir PackageReader from_file unmarshal pkg_file w
    = (Ok pkg, w2)
  ∧ (pkg_file = None → path = module_dir +:+ "/templates/default.pptx")
  ∧ (∀ given, pkg_file = Some given → path = given)
  ∧ Package.open module_dir PackageReader from_file unmarshal None w
    = Package.open module_dir PackageReader from_file unmarshal
        (Some (Package._default_pptx_path module_dir)) w
  ∧ Package.packages w1 !! pkg = Some (Package.mkObj [] None None)
  ∧ Package._instances w1 = Package._instances w ++ [pkg]
  ∧ pkg = Package.next_package w.
Proof.
  intros path pkg w1 Hread Hun. repeat split.
  - unfold Package.open. fold path. rewrite Hread.
    subst pkg w1. unfold Package.new in *. simpl in *. by rewrite Hun.
  - by intros ->.
  - by intros given ->.
  - simpl. apply lookup_insert_eq.
Qed.

Lemma open_reads_constructs_unmarshals_witness :
  Package.open "/site/pptx" nat
    (λ path : string,
       if decide (path = "/site/pptx/templates/default.pptx")
       then Ok 42 else Raise IOError)
    (λ (reader pkg : nat) (w : Package.World),
       (Ok (), Package.mkWorld (<[reader := []]> (Package.parts w))
                 (Package.next_part w) (Package.packages w)
                 (Package.next_package w) (Package._instances w)))
    None (Package.mkWorld ∅ 0 ∅ 0 [])
  = (Ok 0,
     Package.mkWorld (<[42 := []]> ∅) 0
       (<[0 := Package.mkObj [] None None]> ∅) 1 [0]).
Proof.
  exact (proj1 (open_reads_constructs_unmarshals
           "/site/pptx" nat
           (λ path : string,
              if decide (path = "/site/pptx/templates/default.pptx")
              then Ok 42 else Raise IOError)
           (λ (reader pkg : nat) (w : Package.World),
              (Ok (), Package.mkWorld (<[reader := []]> (Package.parts w))
                        (Package.next_part w) (Package.packages w)
                        (Package.next_package w) (Package._instances w)))
           None (Package.mkWorld ∅ 0 ∅ 0 [])
           (Package.mkWorld (<[42 := []]> ∅) 0
              (<[0 := Package.mkObj [] None None]> ∅) 1 [0])
           42 eq_refl eq_refl)).
Defined.

(** ** Plots *)

(** C7.  [data_labels] of a plot whose element has no [dLbls] child is
    the raised [ValueError], with nothing caught on the way; with the
    child there, it is a [DataLabels] around that very child. *)
Theorem data_labels_requires_dLbls (self : Plot.Plot) :
  match Plot.dLbls (Plot._element self) with
  | None => Plot.data_labels self = Raise ValueError
  | Some child =>
      ∃ labels, Plot.data_labels self = Ok labels
                ∧ Plot.dl_element labels = child
  end.
Proof.
  unfold Plot.data_labels.
  destruct (Plot.dLbls (Plot._element self)) as [child|]; [|done].
  by exists (Plot.mkDataLabels child).
Qed.

Example data_labels_on_a_bar_plot :
  Plot.data_labels (Plot.mkPlot (Plot.mkPlotElm "c:barChart" None))
    = Raise ValueError
  ∧ Plot.data_labels (Plot.mkPlot (Plot.mkPlotElm "c:barChart" (Some 3)))
    = Ok (Plot.mkDataLabels 3).
Proof. split; reflexivity. Qed.

(** C10.  [PlotFactory] returns [None] for every plot element: it never
    gives a plot, whatever the tag name. *)
Theorem PlotFactory_returns_None (elm : Plot.plot_elm) :
  Plot.PlotFactory elm = None
  ∧ ∀ plot : Plot.Plot, Plot.PlotFactory elm ≠ Some plot.
Proof. split; [reflexivity|discriminate]. Qed.

(** ** Further properties *)

(** X2.  The list [_walkparts] shares among its recursive calls grows by
    exactly the parts it yields, in the order it yields them. *)
Theorem walkparts_shared_list_grows_by_yields
    (h : Heap) (fuel : nat) (rels : list Relationship)
    (parts out parts' : list Part) :
  Package._walkparts h fuel rels parts = Some (out, parts') →
  parts' = parts ++ out.
Proof. apply walkparts_appends. Qed.

Lemma walkparts_shared_list_grows_by_yields_witness :
  Package._walkparts
    (<[1 := [mkRel "rId1" "slide" 2; mkRel "rId2" "notes" 7]]> ∅) 3
    [mkRel "rId1" "doc" 1] [7]
  = Some ([1; 2], [7; 1; 2])
  ∧ [7; 1; 2] = [7] ++ [1; 2].
Proof.
  split; [reflexivity|].
  apply (walkparts_shared_list_grows_by_yields
           (<[1 := [mkRel "rId1" "slide" 2; mkRel "rId2" "notes" 7]]> ∅) 3
           [mkRel "rId1" "doc" 1] [7] [1; 2] [7; 1; 2]).
  reflexivity.
Defined.

(** X3.  [instances] called again right away returns the same packages
    and leaves the registry as the first call left it. *)
Theorem instances_idempotent (w : Package.World) :
  Package.instances (Package.instances w).2 = Package.instances w.
Proof.
  unfold Package.instances. simpl.
  assert (Hkeep :
    List.filter
      (λ wkref, bool_decide (is_Some (Package.wkref_call w wkref)))
      (List.filter
         (λ wkref, bool_decide (is_Some (Package.wkref_call w wkref)))
         (Package._instances w))
    = List.filter
        (λ wkref, bool_decide (is_Some (Package.wkref_call w wkref)))
        (Package._instances w)).
  { induction (Package._instances w) as [|r l IH]; [done|]. simpl.
    destruct (bool_decide (is_Some (Package.wkref_call w r))) eqn:Hr;
      [|exact IH].
    simpl. rewrite Hr. by rewrite IH. }
  unfold Package.wkref_call in *. simpl. by rewrite Hkeep.
Qed.

(** X4.  [open] handles no error: one raised by the reader leaves before
    any package is constructed, so the registry is as it was; one raised
    by the unmarshaller leaves after the package was constructed and
    registered. *)
Theorem open_lets_errors_through
    (module_dir : string) (PackageReader : Type)
    (from_file : string → result PackageReader)
    (unmarshal :
       PackageReader → nat → Package.World → result unit * Package.World)
    (pkg_file : option string) (w : Package.World) (e : exn) :
  (from_file (default (Package._default_pptx_path module_dir) pkg_file)
   = Raise e →
   Package.open module_dir PackageReader from_file unmarshal pkg_file w
   = (Raise e, w))
  ∧ (∀ reader w2,
       from_file (default (Package._default_pptx_path module_dir) pkg_file)
       = Ok reader →
       unmarshal reader (Package.new w).1 (Package.new w).2 = (Raise e, w2) →
       Package.open module_dir PackageReader from_file unmarshal pkg_file w
       = (Raise e, w2)).
Proof.
  split.
  - intros Hread. unfold Package.open. by rewrite Hread.
  - intros reader w2 Hread Hun. unfold Package.open. rewrite Hread.
    unfold Package.new in *. simpl in *. by rewrite Hun.
Qed.

Example open_on_a_missing_file :
  Package.open "/site/pptx" nat (λ _, Raise IOError)
               (λ _ _ w, (Ok (), w))
               (Some "nowhere.pptx") (Package.mkWorld ∅ 0 ∅ 0 [])
  = (Raise IOError, Package.mkWorld ∅ 0 ∅ 0 []).
Proof. reflexivity. Qed.

(** [Package.presentation] on a package with no office-document
    relationship: each read calls [part_with_reltype] anew, raises its
    [KeyError] and caches nothing. *)
Example presentation_not_found_is_not_cached :
  Package.presentation (Package.mkObj [] None None, (∅, 0))
  = (Raise KeyError, (Package.mkObj [] None None, (∅, 0))).
Proof. reflexivity. Qed.

(** ** More on the traversal *)

Section WalkMore.
Variable h : Heap.
Implicit Types (rels : list Relationship) (seen out ps : list Part).

(** A returned part list, whatever the depth bound it was returned
    under, has no part twice and is the set of reachable parts. *)
Lemma parts_some_spec fuel rels ps :
  Package._parts h fuel rels = Some ps →
  NoDup ps
  ∧ (∀ part, part ∈ ps ↔ Package.reachable h rels part)
  ∧ Package.depth_first h rels [] ps.
Proof.
  intros Hrun. unfold Package._parts in Hrun.
  destruct (Package._walkparts h fuel rels []) as [[out seen']|] eqn:Hw;
    [|done].
  injection Hrun as <-.
  destruct (walkparts_spec h (fuel + (size h + 2)) rels [])
    as (out' & Hrun' & Hnd & Hroot & Hstep & Hreach & Hdf).
  { constructor. }
  { unfold Package.pending. rewrite list_to_set_nil, difference_empty_L.
    rewrite size_dom. lia. }
  rewrite (walkparts_fuel_le h fuel (fuel + (size h + 2)) rels []
             (out, seen')) in Hrun'; [|lia|done].
  injection Hrun' as -> _. simpl.
  repeat split; [done| |by apply reachable_closed|done].
  apply Hreach.
Qed.

(** The walk reads the relationships of reachable parts only. *)
Lemma walkparts_frame (h' : Heap) fuel :
  ∀ rels seen,
    (∀ part, Package.reachable h rels part →
             _relationships h part = _relationships h' part) →
    Package._walkparts h fuel rels seen
    = Package._walkparts h' fuel rels seen.
Proof.
  induction fuel as [|fuel IHfuel]; [done|]. intros rels.
  change (Package._walkparts h (S fuel))
    with (Package.walk_rels h (Package._walkparts h fuel)).
  change (Package._walkparts h' (S fuel))
    with (Package.walk_rels h' (Package._walkparts h' fuel)).
  induction rels as [|rel rels IHrels]; intros seen Hagree; simpl; [done|].
  assert (Hrest : ∀ part, Package.reachable h rels part →
            _relationships h part = _relationships h' part).
  { intros part Hr. apply Hagree. eapply reachable_mono; [|exact Hr].
    intros x Hx. by apply elem_of_cons; right. }
  assert (Hroot : Package.reachable h (rel :: rels) (target_part rel)).
  { apply Package.reach_root. by apply elem_of_cons; left. }
  destruct (decide (target_part rel ∈ seen)); [by apply IHrels|].
  rewrite <- (Hagree _ Hroot).
  rewrite <- (IHfuel (_relationships h (target_part rel))).
  - destruct (Package._walkparts h fuel _ _) as [[sub seen2]|]; [|done].
    by rewrite (IHrels seen2 Hrest).
  - intros part Hr. apply Hagree. by eapply reachable_through.
Qed.

(** In a depth-first order every part comes after a part that points at
    it, unless a relationship of the collection walked points at it. *)
Lemma depth_first_parent_first rels seen out :
  Package.depth_first h rels seen out →
  ∀ before part after,
    out = before ++ part :: after →
    (∃ rel, rel ∈ rels ∧ target_part rel = part)
    ∨ (∃ parent rel, parent ∈ before
                     ∧ rel ∈ _relationships h parent
                     ∧ target_part rel = part).
Proof.
  induction 1 as [seen|rel rels seen out Hin _ IH
                  |rel rels seen sub rest Hnew _ IHsub _ IHrest];
    intros before part after Hout.
  - by destruct before.
  - destruct (IH _ _ _ Hout) as [(r & Hr & Ht)|Hp]; [|by right].
    left. exists r. split; [by apply elem_of_cons; right|done].
  - destruct before as [|b before]; simpl in Hout.
    + injection Hout as <- _. left. exists rel.
      split; [by apply elem_of_cons; left|done].
    + injection Hout as <- Hout.
      apply app_eq_inv in Hout as [(mid & Hsub & Hrest)|(mid & Hb & Hrest)].
      * destruct mid as [|m mid]; simpl in Hrest.
        -- (* the part opens [rest] *)
           rewrite app_nil_r in Hsub. subst before.
           destruct (IHrest [] part after (eq_sym Hrest))
             as [(r & Hr & Ht)|(q & r & Hq & _)].
           ++ left. exists r. split; [by apply elem_of_cons; right|done].
           ++ by apply elem_of_nil in Hq.
        -- (* the part lies in [sub] *)
           injection Hrest as -> ->.
           destruct (IHsub before m mid Hsub)
             as [(r & Hr & Ht)|(q & r & Hq & Hr & Ht)].
           ++ right. exists (target_part rel), r.
              split; [by apply elem_of_cons; left|done].
           ++ right. exists q, r.
              split; [by apply elem_of_cons; right|done].
      * (* the part lies further in [rest] *)
        destruct (IHrest mid part after Hrest)
          as [(r & Hr & Ht)|(q & r & Hq & Hr & Ht)].
        -- left. exists r. split; [by apply elem_of_cons; right|done].
        -- right. exists q, r. split; [|done].
           apply elem_of_cons; right. rewrite Hb.
           apply elem_of_app. by right.
Qed.

End WalkMore.

(** X5.  The traversal reads the relationships of the parts it visits
    and of no other: giving a part outside the returned list other
    relationships, or adding such a part to the store, leaves the list
    as it is. *)
Theorem parts_ignore_unvisited_parts
    (h : Heap) (fuel : nat) (rels : list Relationship) (ps : list Part)
    (other : Part) (other_rels : list Relationship) :
  Package._parts h fuel rels = Some ps →
  other ∉ ps →
  Package._parts (<[other := other_rels]> h) fuel rels = Some ps.
Proof.
  intros Hrun Hother. rewrite <- Hrun. unfold Package._parts. f_equal.
  symmetry. apply walkparts_frame. intros part Hreach.
  destruct (parts_some_spec h fuel rels ps Hrun) as (_ & Hiff & _).
  unfold _relationships. rewrite lookup_insert_ne; [done|].
  intros <-. by apply Hother, Hiff.
Qed.

Lemma parts_ignore_unvisited_parts_witness :
  Package._parts
    (<[9 := [mkRel "rId1" "slide" 1]]>
       (<[1 := [mkRel "rId1" "slide" 2]]> ∅))
    3 [mkRel "rId1" "doc" 1]
  = Some [1; 2].
Proof.
  apply (parts_ignore_unvisited_parts
           (<[1 := [mkRel "rId1" "slide" 2]]> ∅) 3
           [mkRel "rId1" "doc" 1] [1; 2] 9 [mkRel "rId1" "slide" 1]).
  - reflexivity.
  - rewrite list_elem_of_In. simpl. lia.
Defined.

(** X6.  The part list grows with the root collection: every part listed
    for a collection is listed for any collection that has all its
    relationships. *)
Theorem parts_grow_with_root_relationships
    (h : Heap) (fuel fuel' : nat) (rels rels' : list Relationship)
    (ps ps' : list Part) :
  rels ⊆ rels' →
  Package._parts h fuel rels = Some ps →
  Package._parts h fuel' rels' = Some ps' →
  ps ⊆ ps'.
Proof.
  intros Hsub Hrun Hrun' part Hin.
  destruct (parts_some_spec h fuel rels ps Hrun) as (_ & Hiff & _).
  destruct (parts_some_spec h fuel' rels' ps' Hrun') as (_ & Hiff' & _).
  apply Hiff'. eapply reachable_mono; [exact Hsub|]. by apply Hiff.
Qed.

Lemma parts_grow_with_root_relationships_witness :
  Package._parts (<[1 := [mkRel "rId1" "slide" 2]]> ∅) 3
                 [mkRel "rId0" "props" 7; mkRel "rId1" "doc" 1]
  = Some [7; 1; 2]
  ∧ [1; 2] ⊆ [7; 1; 2].
Proof.
  split; [reflexivity|].
  apply (parts_grow_with_root_relationships
           (<[1 := [mkRel "rId1" "slide" 2]]> ∅) 3 3
           [mkRel "rId1" "doc" 1]
           [mkRel "rId0" "props" 7; mkRel "rId1" "doc" 1]
           [1; 2] [7; 1; 2]).
  - intros x Hx. by apply elem_of_cons; right.
  - reflexivity.
  - reflexivity.
Defined.

(** X7.  Parents come first: every part of the list is the target of a
    root relationship or of a relationship of a part listed before
    it. *)
Theorem parts_list_parents_first
    (h : Heap) (fuel : nat) (rels : list Relationship)
    (before after : list Part) (part : Part) :
  Package._parts h fuel rels = Some (before ++ part :: after) →
  (∃ rel, rel ∈ rels ∧ target_part rel = part)
  ∨ (∃ parent rel, parent ∈ before
                   ∧ rel ∈ _relationships h parent
                   ∧ target_part rel = part).
Proof.
  intros Hrun.
  destruct (parts_some_spec h fuel rels _ Hrun) as (_ & _ & Hdf).
  by eapply depth_first_parent_first.
Qed.

Lemma parts_list_parents_first_witness :
  (∃ rel, rel ∈ [mkRel "rId1" "doc" 1] ∧ target_part rel = 2)
  ∨ (∃ parent rel,
       parent ∈ [1]
       ∧ rel ∈ _relationships (<[1 := [mkRel "rId1" "slide" 2]]> ∅) parent
       ∧ target_part rel = 2).
Proof.
  apply (parts_list_parents_first
           (<[1 := [mkRel "rId1" "slide" 2]]> ∅) 3
           [mkRel "rId1" "doc" 1] [1] [] 2).
  reflexivity.
Defined.

(** ** More on lazy properties *)

(** X8.  An object that already carries the cache attribute pre-empts the
    decorated method: over any number of reads the method is never
    called, every read returns the attribute, and the object is left as
    it is. *)
Theorem lazyproperty_existing_attribute_preempts_method
    (f_name : string) (f : Lazy.Attrs → result nat * Lazy.Attrs)
    (obj : Lazy.Attrs) (v n calls : nat) :
  obj !! Lazy.cache_attr_name f_name = Some v →
  Lazy.accesses f_name f n (obj, calls)
  = (replicate n (Ok v), (obj, calls)).
Proof. intros Hc. by apply accesses_cached. Qed.

Lemma lazyproperty_existing_attribute_preempts_method_witness :
  Lazy.accesses "slides" (λ obj, (Ok 7, ∅)) 2 (<["_slides" := 3]> ∅, 0)
  = ([Ok 3; Ok 3], (<["_slides" := 3]> ∅, 0)).
Proof.
  apply (lazyproperty_existing_attribute_preempts_method
           "slides" (λ obj, (Ok 7, ∅)) (<["_slides" := 3]> ∅) 3 2 0).
  reflexivity.
Defined.

(** ** More on [Package.core_properties] and [Package.presentation] *)

Section PackageMore.
Import Package.

(** What a read of [core_properties] gives when the cache is not set:
    the first relationship of the type decides. *)
Lemma core_properties_cases (self : Obj) (h : Heap) (next : nat) :
  _core_properties self = None →
  (∃ rel, rel ∈ _rels self
          ∧ core_properties (self, (h, next))
            = (Ok (target_part rel),
               (mkObj (_rels self) (Some (target_part rel))
                      (_presentation self), (h, next))))
  ∨ (core_properties (self, (h, next))
     = (Ok next,
        (mkObj (_rels self
                ++ [mkRel (RelationshipCollection._next_rId (_rels self))
                          RT.CORE_PROPERTIES next])
               (Some next) (_presentation self),
         (<[next := []]> h, S next)))).
Proof.
  intros Hfirst.
  unfold core_properties, get_prop_value, attr. simpl. rewrite Hfirst.
  simpl. unfold RelationshipCollection.part_with_reltype,
    RelationshipCollection.get_or_add, CoreProperties_default.
  destruct (List.find _ (_rels self)) as [rel|] eqn:Hfind.
  - left. exists rel. split; [|done].
    apply list_elem_of_In. by apply List.find_some in Hfind as [? _].
  - by right.
Qed.

Lemma core_properties_cached (s : State) (v : Part) :
  _core_properties s.1 = Some v → core_properties s = (Ok v, s).
Proof.
  intros Hc. unfold core_properties, get_prop_value, attr. by rewrite Hc.
Qed.

(** Every target of a root relationship is in the part list. *)
Lemma parts_has_root_targets (h : Heap) (k : nat)
    (rels : list Relationship) (rel : Relationship) :
  rel ∈ rels →
  ∃ ps, _parts h (size h + 2 + k) rels = Some ps ∧ target_part rel ∈ ps.
Proof.
  intros Hin. destruct (_parts_total h k rels) as [ps Hps].
  exists ps. split; [done|].
  destruct (parts_some_spec h _ rels ps Hps) as (_ & Hiff & _).
  apply Hiff. by apply reach_root.
Qed.

Lemma instances_elem (w : World) (x : option (nat * Obj)) :
  x ∈ (instances w).1 ↔
  ∃ r o, x = Some (r, o) ∧ r ∈ _instances w ∧ packages w !! r = Some o.
Proof.
  rewrite instances_returned, list_elem_of_fmap. split.
  - intros (r & -> & Hr). apply kept_live in Hr as [Hr [o Ho]].
    exists r, o. repeat split; [|done|done].
    unfold wkref_call. by rewrite Ho.
  - intros (r & o & -> & Hr & Ho). exists r. split.
    + unfold wkref_call. by rewrite Ho.
    + apply kept_live. split; [done|by exists o].
Qed.

(** A package [containing] returns was among those looped over. *)
Lemma containing_loop_Ok (h : Heap) (fuel : nat) (part : Part)
    (pkgs : list (option (nat * Obj))) (pkg : nat) :
  containing_loop h fuel part pkgs = Some (Ok pkg) →
  ∃ o, Some (pkg, o) ∈ pkgs.
Proof.
  induction pkgs as [|[[q o]|] pkgs IH]; simpl; [done| |done].
  destruct (_parts h fuel (_rels o)) as [ps|]; [|done].
  destruct (decide (part ∈ ps)).
  - intros [= <-]. exists o. by apply elem_of_cons; left.
  - intros Hrun. destruct (IH Hrun) as [o' Ho'].
    exists o'. by apply elem_of_cons; right.
Qed.

End PackageMore.

(** X9.  [core_properties] never raises and makes at most one part.  A
    read returns a part and either leaves the part store and the root
    collection as they were, or adds to the store the one part it
    returns and to the root collection one core-properties relationship
    to it.  The next read returns the same part and changes nothing. *)
Theorem core_properties_is_a_singleton (s : Package.State) :
  ∃ part s',
    Package.core_properties s = (Ok part, s')
    ∧ Package.core_properties s' = (Ok part, s')
    ∧ ( (s'.2 = s.2 ∧ Package._rels s'.1 = Package._rels s.1)
        ∨ (∃ added,
             s'.2 = (<[s.2.2 := []]> s.2.1, S s.2.2)
             ∧ part = s.2.2
             ∧ Package._rels s'.1 = Package._rels s.1 ++ [added]
             ∧ target_part added = part
             ∧ reltype added = RT.CORE_PROPERTIES) ).
Proof.
  destruct s as [self [h next]].
  destruct (Package._core_properties self) as [v|] eqn:Hc.
  - exists v, (self, (h, next)).
    rewrite !(core_properties_cached (self, (h, next)) v Hc).
    repeat split. by left.
  - destruct (core_properties_cases self h next Hc)
      as [(rel & _ & Hrun)|Hrun]; rewrite Hrun.
    + eexists _, _. split; [done|]. split.
      * by apply core_properties_cached.
      * by left.
    + eexists _, _. split; [done|]. split.
      * by apply core_properties_cached.
      * right. by eexists.
Qed.

(** X10.  The part a first read of [core_properties] returns belongs to
    the package afterwards: the traversal of the root collection, as the
    read left it, lists the part. *)
Theorem core_properties_part_is_in_parts
    (self : Package.Obj) (h : Heap) (next k : nat) :
  Package._core_properties self = None →
  ∃ part self' h' next' ps,
    Package.core_properties (self, (h, next))
    = (Ok part, (self', (h', next')))
    ∧ Package._parts h' (size h' + 2 + k) (Package._rels self') = Some ps
    ∧ part ∈ ps.
Proof.
  intros Hfirst.
  destruct (core_properties_cases self h next Hfirst)
    as [(rel & Hin & Hrun)|Hrun]; rewrite Hrun.
  - destruct (parts_has_root_targets h k (Package._rels self) rel Hin)
      as (ps & Hps & Hp).
    by eexists _, _, _, _, ps.
  - set (added := mkRel _ RT.CORE_PROPERTIES next).
    destruct (parts_has_root_targets (<[next := []]> h) k
                (Package._rels self ++ [added]) added)
      as (ps & Hps & Hp).
    { apply elem_of_app. right. by apply list_elem_of_singleton. }
    by eexists _, _, _, _, ps.
Qed.

Lemma core_properties_part_is_in_parts_witness :
  ∃ part self' h' next' ps,
    Package.core_properties
      (Package.mkObj [mkRel "rId1" RT.OFFICE_DOCUMENT 1] None None,
       (<[1 := []]> ∅, 2))
    = (Ok part, (self', (h', next')))
    ∧ Package._parts h' (size h' + 2 + 0) (Package._rels self') = Some ps
    ∧ part ∈ ps.
Proof.
  apply (core_properties_part_is_in_parts
           (Package.mkObj [mkRel "rId1" RT.OFFICE_DOCUMENT 1] None None)
           (<[1 := []]> ∅) 2 0).
  reflexivity.
Defined.

(** X11.  [presentation] caches a success and nothing else.  On a package
    with no office-document relationship a read raises [KeyError] and
    leaves the package as it was; once such a relationship is there the
    next read returns its target; and from then on the cached part is
    returned whatever becomes of the relationships. *)
Theorem presentation_caches_success_only
    (self : Package.Obj) (store : Heap * nat)
    (rel : Relationship) (later : list Relationship) :
  Package._presentation self = None →
  (∀ r, r ∈ Package._rels self → reltype r ≠ RT.OFFICE_DOCUMENT) →
  reltype rel = RT.OFFICE_DOCUMENT →
  Package.presentation (self, store) = (Raise KeyError, (self, store))
  ∧ Package.presentation
      (Package.mkObj (Package._rels self ++ [rel])
                     (Package._core_properties self) None, store)
    = (Ok (target_part rel),
       (Package.mkObj (Package._rels self ++ [rel])
                      (Package._core_properties self)
                      (Some (target_part rel)), store))
  ∧ Package.presentation
      (Package.mkObj later (Package._core_properties self)
                     (Some (target_part rel)), store)
    = (Ok (target_part rel),
       (Package.mkObj later (Package._core_properties self)
                      (Some (target_part rel)), store)).
Proof.
  intros Hfirst Hno Hrt. repeat split.
  - unfold Package.presentation, get_prop_value, Package.attr,
      Package.presentation_body. simpl. rewrite Hfirst.
    by rewrite part_with_reltype_not_found.
  - unfold Package.presentation, get_prop_value, Package.attr,
      Package.presentation_body. simpl.
    unfold RelationshipCollection.part_with_reltype.
    by rewrite find_reltype_app_new.
Qed.

Lemma presentation_caches_success_only_witness :
  Package.presentation (Package.mkObj [] None None, (∅, 0))
  = (Raise KeyError, (Package.mkObj [] None None, (∅, 0)))
  ∧ Package.presentation
      (Package.mkObj [] None (Some 1), (∅, 0))
    = (Ok 1, (Package.mkObj [] None (Some 1), (∅, 0))).
Proof.
  destruct (presentation_caches_success_only
              (Package.mkObj [] None None) (∅, 0)
              (mkRel "rId1" RT.OFFICE_DOCUMENT 1) [] eq_refl)
    as (Hraise & _ & Hstale).
  - intros r Hr. by apply elem_of_nil in Hr.
  - reflexivity.
  - split; [exact Hraise|exact Hstale].
Defined.

(** ** More on [Package.containing] *)

(** X12.  [containing] never returns a package that was collected, even
    though its parts are still in the store and its reference may still
    be in the registry. *)
Theorem containing_skips_collected_packages
    (w : Package.World) (pkg : nat) (part : Part) (fuel : nat) :
  (Package.containing fuel part (Package.collect pkg w)).1
  ≠ Some (Ok pkg).
Proof.
  unfold Package.containing.
  destruct (Package.instances (Package.collect pkg w)) as [pkgs w']
    eqn:Hinst. simpl.
  intros Hrun. apply containing_loop_Ok in Hrun as [o Ho].
  assert (Hin : Some (pkg, o)
                ∈ (Package.instances (Package.collect pkg w)).1).
  { by rewrite Hinst. }
  apply instances_elem in Hin as (r & o' & [= <- <-] & _ & Hlive).
  simpl in Hlive. by rewrite lookup_delete_eq in Hlive.
Qed.

(** X13.  [containing] finds every part of a live registered package:
    for a part reachable from the root relationships of one, it returns
    a live package from whose root relationships the part is reachable,
    and not [KeyError]. *)
Theorem containing_finds_parts_of_live_packages
    (w : Package.World) (pkg : nat) (o : Package.Obj) (part : Part)
    (k : nat) :
  pkg ∈ Package._instances w →
  Package.packages w !! pkg = Some o →
  Package.reachable (Package.parts w) (Package._rels o) part →
  ∃ found o',
    (Package.containing (size (Package.parts w) + 2 + k) part w).1
    = Some (Ok found)
    ∧ found ∈ Package._instances w
    ∧ Package.packages w !! found = Some o'
    ∧ Package.reachable (Package.parts w) (Package._rels o') part.
Proof.
  intros Hreg Hlive Hreach.
  set (fuel := size (Package.parts w) + 2 + k).
  set (live := Package._instances (Package.instances w).2).
  destruct (containing_loop_spec w fuel part live) as (res & Hrun & Hres).
  { intros rels. apply _parts_total. }
  { intros r Hr. by apply kept_live in Hr as [_ ?]. }
  assert (Hcont : (Package.containing fuel part w).1 = Some res).
  { unfold Package.containing.
    pose proof (instances_returned w) as Hpkgs.
    assert (Hparts : Package.parts (Package.instances w).2
                     = Package.parts w) by reflexivity.
    subst live. destruct (Package.instances w) as [pkgs w'].
    simpl in *. by rewrite Hpkgs, Hparts. }
  destruct res as [found|e].
  - destruct Hres as (before & after & Hsplit & (o' & ps & Ho' & Hps & Hin)
                      & _).
    exists found, o'. split; [exact Hcont|].
    assert (Hfound : found ∈ live).
    { rewrite Hsplit. apply elem_of_app. right. by apply elem_of_cons; left. }
    apply kept_live in Hfound as [Hfound _].
    repeat split; [done|done|].
    destruct (parts_some_spec _ _ _ ps Hps) as (_ & Hiff & _).
    by apply Hiff.
  - exfalso. destruct Hres as [_ Hno]. apply (Hno pkg).
    + apply kept_live. split; [done|by exists o].
    + destruct (_parts_total (Package.parts w) k (Package._rels o))
        as [ps Hps].
      exists o, ps. repeat split; [done|done|].
      destruct (parts_some_spec _ _ _ ps Hps) as (_ & Hiff & _).
      by apply Hiff.
Qed.

Lemma containing_finds_parts_of_live_packages_witness :
  ∃ found o',
    (Package.containing
       (size (Package.parts
          (Package.mkWorld ∅ 8
          (<[0 := Package.mkObj [mkRel "rId1" "doc" 7] None None]> ∅)
          1 [0])) + 2 + 0)
       7
       (Package.mkWorld ∅ 8
          (<[0 := Package.mkObj [mkRel "rId1" "doc" 7] None None]> ∅)
          1 [0])).1
    = Some (Ok found)
    ∧ found ∈ Package._instances
        (Package.mkWorld ∅ 8
          (<[0 := Package.mkObj [mkRel "rId1" "doc" 7] None None]> ∅)
          1 [0])
    ∧ Package.packages
        (Package.mkWorld ∅ 8
          (<[0 := Package.mkObj [mkRel "rId1" "doc" 7] None None]> ∅)
          1 [0])
        !! found = Some o'
    ∧ Package.reachable
        (Package.parts
          (Package.mkWorld ∅ 8
          (<[0 := Package.mkObj [mkRel "rId1" "doc" 7] None None]> ∅)
          1 [0]))
        (Package._rels o') 7.
Proof.
  apply (containing_finds_parts_of_live_packages
           (Package.mkWorld ∅ 8
          (<[0 := Package.mkObj [mkRel "rId1" "doc" 7] None None]> ∅)
          1 [0])
           0 (Package.mkObj [mkRel "rId1" "doc" 7] None None) 7 0).
  - simpl. by apply list_elem_of_singleton.
  - reflexivity.
  - apply (Package.reach_root ∅ _ (mkRel "rId1" "doc" 7)).
    by apply list_elem_of_singleton.
Defined.

(** ** More on [Presentation] *)

(** X14.  [after_unmarshal] on a presentation none of whose
    relationships is a slide-master one changes nothing at all: no
    collection is created and every attribute stays as it was. *)
Theorem after_unmarshal_without_slide_masters (p : Presentation.Obj) :
  (∀ rel, rel ∈ Presentation._relationships p →
          reltype rel ≠ RT.SLIDE_MASTER) →
  Presentation.after_unmarshal p = p.
Proof.
  unfold Presentation.after_unmarshal.
  generalize (Presentation._relationships p) as rels.
  intros rels. revert p.
  induction rels as [|rel rels IH]; intros p Hno; simpl; [done|].
  destruct (decide (reltype rel = RT.SLIDE_MASTER)) as [Hm|_].
  - exfalso. apply (Hno rel); [by apply elem_of_cons; left|done].
  - apply IH. intros r Hr. apply Hno. by apply elem_of_cons; right.
Qed.

Lemma after_unmarshal_without_slide_masters_witness :
  Presentation.after_unmarshal
    (Presentation.mkObj 1 "/ppt/presentation.xml" "application/xml"
       (Presentation.mkElement [] None) [mkRel "rId1" "slide" 4] None None)
  = Presentation.mkObj 1 "/ppt/presentation.xml" "application/xml"
      (Presentation.mkElement [] None) [mkRel "rId1" "slide" 4] None None.
Proof.
  apply (after_unmarshal_without_slide_masters
           (Presentation.mkObj 1 "/ppt/presentation.xml" "application/xml"
              (Presentation.mkElement [] None)
              [mkRel "rId1" "slide" 4] None None)).
  intros rel ->%list_elem_of_singleton. simpl. discriminate.
Defined.

(** X15.  A read of [slides] settles the part: the next read returns
    the same collection, changes nothing and makes no call to
    [get_or_add_sldIdLst], whatever that call would do.  A read never
    touches the slide masters or the relationships.  With the collection
    already cached it leaves the part exactly as it was; otherwise it
    calls [get_or_add_sldIdLst] once, keeps the element as the call left
    it and builds the collection around what the call returned. *)
Theorem slides_read_settles
    (get_or_add_sldIdLst :
       Presentation.CT_Presentation
       → list string * Presentation.CT_Presentation)
    (p : Presentation.Obj) :
  ∃ sc p1,
    Presentation.slides get_or_add_sldIdLst p = (sc, p1)
    ∧ (∀ other_call, Presentation.slides other_call p1 = (sc, p1))
    ∧ Presentation._slidemasters p1 = Presentation._slidemasters p
    ∧ Presentation._relationships p1 = Presentation._relationships p
    ∧ (is_Some (Presentation._slides p) → p1 = p)
    ∧ (Presentation._slides p = None →
       Presentation._element p1
       = (get_or_add_sldIdLst (Presentation._element p)).2
       ∧ sc = Presentation.mkSlideCollection
                (get_or_add_sldIdLst (Presentation._element p)).1
                (Presentation._relationships p) (Presentation.self p)).
Proof.
  unfold Presentation.slides at 1.
  destruct (Presentation._slides p) as [sc|] eqn:Hs.
  - exists sc, p. repeat split; try done.
    intros other_call. unfold Presentation.slides. by rewrite Hs.
  - destruct (get_or_add_sldIdLst (Presentation._element p))
      as [child elm'] eqn:Hcall.
    eexists _, _. split; [reflexivity|]. simpl.
    repeat split; try done.
Qed.

(** X16.  [after_unmarshal] does not check what it added before: run a
    second time on the same part it calls [add_part] again for every
    slide-master relationship, so each target is added twice. *)
Theorem after_unmarshal_twice_adds_twice (p : Presentation.Obj) :
  let masters :=
    target_part <$>
      List.filter (λ rel, bool_decide (reltype rel = RT.SLIDE_MASTER))
                  (Presentation._relationships p) in
  Presentation._slidemasters
    (Presentation.after_unmarshal (Presentation.after_unmarshal p))
  = match masters with
    | [] => Presentation._slidemasters p
    | _ => Some (default [] (Presentation._slidemasters p)
                 ++ masters ++ masters)
    end.
Proof.
  intros masters.
  destruct (after_unmarshal_loop (Presentation._relationships p) p)
    as (_ & Hr & _ & Hc).
  fold (Presentation.after_unmarshal p) in Hr, Hc.
  destruct (after_unmarshal_loop
              (Presentation._relationships (Presentation.after_unmarshal p))
              (Presentation.after_unmarshal p))
    as (_ & _ & _ & Hc2).
  fold (Presentation.after_unmarshal (Presentation.after_unmarshal p))
    in Hc2.
  rewrite Hc2, Hr, Hc. fold masters.
  destruct masters as [|m ms]; [done|]. simpl.
  by rewrite <- app_assoc.
Qed.

Example after_unmarshal_twice_on_one_master :
  Presentation._slidemasters
    (Presentation.after_unmarshal
       (Presentation.after_unmarshal
          (Presentation.mkObj 1 "/ppt/presentation.xml" "application/xml"
             (Presentation.mkElement [] None)
             [mkRel "rId1" RT.SLIDE_MASTER 5; mkRel "rId2" "slide" 6]
             None None)))
  = Some [5; 5].
Proof. reflexivity. Qed.

(** ** [Package.after_unmarshal] *)

(** X17.  Under the depth bound of the store [Package.after_unmarshal]
    returns without error, having called [load] on the image collection
    once, with a list that has every part reachable from the root
    relationships exactly once; the collection is created when the
    package had none, and the package is otherwise left as it was. *)
Theorem package_after_unmarshal_loads_every_part
    (s : Package.ImagesState) (k : nat) :
  ∃ ps,
    Package.after_unmarshal (size s.1.2.1 + 2 + k) s
    = Some (Ok (), (s.1, Some (default [] s.2 ++ [ps])))
    ∧ NoDup ps
    ∧ ∀ part, part ∈ ps
              ↔ Package.reachable s.1.2.1 (Package._rels s.1.1) part.
Proof.
  destruct s as [[self [h next]] images]. simpl.
  destruct (_parts_total h k (Package._rels self)) as [ps Hps].
  destruct (parts_some_spec h _ _ ps Hps) as (Hnd & Hiff & _).
  exists ps. split; [|done].
  unfold Package.after_unmarshal, Package._images, get_prop_value.
  destruct images as [c|]; simpl; by rewrite Hps.
Qed.

Example package_after_unmarshal_on_a_cycle :
  Package.after_unmarshal 4
    ((Package.mkObj [mkRel "rId1" "doc" 1] None None,
      (<[1 := [mkRel "rId1" "slide" 2]]>
         (<[2 := [mkRel "rId1" "back" 1]]> ∅), 3)),
     None)
  = Some (Ok (),
          ((Package.mkObj [mkRel "rId1" "doc" 1] None None,
            (<[1 := [mkRel "rId1" "slide" 2]]>
               (<[2 := [mkRel "rId1" "back" 1]]> ∅), 3)),
           Some [[1; 2]])).
Proof. reflexivity. Qed.
